(* Verification of the `staging` derive (crate staging_core, src/lib.rs).

   The derive reads a struct `Ident { f1: T1, ..., fn: Tn }` and emits

     struct IdentStaging { pub f1: Result<T1, Error>, ..., [pub additional_errors: Vec<Error>] }

     impl TryFrom<IdentStaging> for Ident {
         type Error = FinalError;
         fn try_from(checker) -> Result<Self, Self::Error> {
             let mut __errors = <errors_init>;
             let f1 = match checker.f1 { Ok(value) => Some(value),
                                         Err(err) => { __errors.push(err); None } };
             ...
             if !__errors.is_empty() { return Err(__errors.into_iter().collect()); }
             Ok(Ident { f1: f1.unwrap(), ... })
         }
     }

   Module [Conversion] embeds the emitted `try_from`; module [Derive] embeds
   the receiver built by darling from the derive input and the generation
   step (`try_derive_checker`, `Receiver::to_tokens`). *)

From Stdlib Require Import List Ascii String Bool NArith Lia.
Import ListNotations.

(** [std::result::Result]. *)
Inductive Result (T E : Type) : Type :=
| Ok (value : T)
| Err (err : E).
Arguments Ok {T E} value.
Arguments Err {T E} err.

Module Conversion.

Section TryFrom.

(** The per-field error type `error` and the conversion's failure type
    `final_error`. *)
Variable Error FinalError : Type.

(** `__errors.into_iter().collect()`: the user's
    [FromIterator<Error> for FinalError] implementation. *)
Variable collect : list Error -> FinalError.

(** One field of the staging struct: `pub ident: Result<ty, Error>`.  The
    fields of a struct have different types, so each slot carries its own. *)
Definition field_slot : Type := { ty : Type & Result ty Error }.

(** One field of the final struct: a value of the field's declared type. *)
Definition field_value : Type := { ty : Type & ty }.

(** The staging value `checker`, fields in declaration order.  The struct
    declares `additional_errors` only when the receiver's flag is set; the
    conversion reads it only in that case (see [errors_init]). *)
Record Checker : Type := {
  checker_fields : list field_slot;
  additional_errors : list Error
}.

(** What one call of the generated `try_from` does: its result, or [None]
    when it panics (an `.unwrap()` on [None]), and the arguments of each
    call of [collect], in call order. *)
Record Run : Type := {
  run_result : option (Result (list field_value) FinalError);
  run_collects : list (list Error)
}.

(** `Vec::is_empty`. *)
Definition vec_is_empty {A} (v : list A) : bool :=
  match v with [] => true | _ :: _ => false end.

(** `errors_init`: `checker.additional_errors` when the flag is present,
    `Vec::new()` otherwise. *)
Definition errors_init (flag : bool) (checker : Checker) : list Error :=
  if flag then additional_errors checker else [].

(** `ReceiverField::take_error`: the statement emitted for one field.  It
    returns the new `__errors` and the local `let ident = ...`. *)
Definition take_error (errors : list Error) (slot : field_slot)
  : list Error * option field_value :=
  match slot with
  | existT _ ty (Ok value) => (errors, Some (existT _ ty value))
  | existT _ ty (Err err) => (errors ++ [err], None)
  end.

(** The statements `#(#take_errors);*`, run in field order. *)
Fixpoint take_errors (errors : list Error) (slots : list field_slot)
  : list Error * list (option field_value) :=
  match slots with
  | [] => (errors, [])
  | slot :: rest =>
      let (errors1, local) := take_error errors slot in
      let (errors2, locals) := take_errors errors1 rest in
      (errors2, local :: locals)
  end.

(** `ReceiverField::initializer`: `ident: ident.unwrap()` for every field;
    [None] when one of the unwraps panics. *)
Fixpoint initializers (locals : list (option field_value))
  : option (list field_value) :=
  match locals with
  | [] => Some []
  | Some v :: rest =>
      match initializers rest with
      | Some vs => Some (v :: vs)
      | None => None
      end
  | None :: _ => None
  end.

(** The generated `TryFrom::try_from`. *)
Definition try_from (flag : bool) (checker : Checker) : Run :=
  let (errors, locals) :=
    take_errors (errors_init flag checker) (checker_fields checker) in
  if negb (vec_is_empty errors) then
    {| run_result := Some (Err (collect errors)); run_collects := [errors] |}
  else
    {| run_result := option_map Ok (initializers locals); run_collects := [] |}.

(** The errors of the failing fields, in declaration order. *)
Fixpoint field_errors (slots : list field_slot) : list Error :=
  match slots with
  | [] => []
  | existT _ _ (Ok _) :: rest => field_errors rest
  | existT _ _ (Err err) :: rest => err :: field_errors rest
  end.

(** The local `Option` bound for each field. *)
Definition slot_local (slot : field_slot) : option field_value :=
  match slot with
  | existT _ ty (Ok value) => Some (existT _ ty value)
  | existT _ _ (Err _) => None
  end.

(** A successful slot holding a given value. *)
Definition ok_slot (v : field_value) : field_slot :=
  match v with existT _ ty value => existT _ ty (Ok value) end.

End TryFrom.

Arguments field_slot Error : clear implicits.
Arguments Checker Error : clear implicits.
Arguments Run Error FinalError : clear implicits.
Arguments checker_fields {Error}.
Arguments additional_errors {Error}.
Arguments run_result {Error FinalError}.
Arguments run_collects {Error FinalError}.
Arguments errors_init {Error}.
Arguments take_error {Error}.
Arguments take_errors {Error}.
Arguments try_from {Error FinalError}.
Arguments field_errors {Error}.
Arguments slot_local {Error}.
Arguments ok_slot {Error}.

End Conversion.

Module Derive.

Local Open Scope string_scope.



(** The options of `#[staging(...)]` as darling reads them, for an input
    whose attributes it reads without error. *)
Record StagingAttrs : Type := {
  attr_name : option string;
  attr_error : option string;
  attr_final_error : option string;
  attr_crate_root : option string;
  attr_additional_errors : bool
}.


(** [darling::ast::Style]. *)
Inductive Style : Type := Tuple | Struct | Unit.

(** `struct Field { ident: Option<syn::Ident>, ty: syn::Type }`. *)
Record Field : Type := {
  field_ident : option string;
  field_ty : string
}.

(** [darling::ast::Data<(), Field>]. *)
Inductive Data : Type :=
| Enum (variants : list unit)
| StructData (style : Style) (fields : list Field).

(** `struct Receiver`. *)
Record Receiver : Type := {
  ident : string;
  vis : string;
  data : Data;
  name : option string;
  error : string;
  final_error_opt : option string;
  crate_root_opt : option string;
  additional_errors : bool
}.


(** The [Field] darling builds from `ident: ty` and from a positional `ty`. *)
Definition named_field (f : string * string) : Field :=
  {| field_ident := Some (fst f); field_ty := snd f |}.




(** `Receiver::checker_name`. *)
Definition checker_name (r : Receiver) : string :=
  match name r with
  | Some n => n
  | None => ident r ++ "Staging"
  end.

(** `Receiver::final_error`. *)
Definition final_error (r : Receiver) : string :=
  match final_error_opt r with
  | Some p => p
  | None => error r
  end.

(** `Receiver::crate_root`. *)
Definition crate_root (r : Receiver) : string :=
  match crate_root_opt r with
  | Some p => p
  | None => "::staging_core"
  end.

(** `Receiver::additional_errors_ident`. *)
Definition additional_errors_ident (r : Receiver) : option string :=
  if additional_errors r then Some "additional_errors" else None.

(** Why the macro panics. *)
Inductive Panic : Type :=
| PanicExpect (msg : string)   (* an `.expect(msg)` on [None] *)
| PanicParseQuote.             (* `parse_quote!` on tokens that do not parse *)

(** The emitted items: the staging struct and the `TryFrom` impl. *)
Record StagingStruct : Type := {
  struct_vis : string;
  struct_name : string;
  struct_fields : list (string * string);        (* `pub ident: ty` *)
  struct_errors_decl : option (string * string)  (* `pub additional_errors: Vec<error>` *)
}.

Record Generated : Type := {
  gen_struct : StagingStruct;
  gen_target : string;               (* `impl TryFrom<..> for #ident` *)
  gen_error_type : string;           (* `type Error = #final_error;` *)
  gen_take_errors : list string;     (* the fields taken, in order *)
  gen_initializers : list string;    (* the fields initialised, in order *)
  gen_reads_additional : bool        (* `errors_init` is `checker.additional_errors` *)
}.

(** `ReceiverField::field_type`. *)
Definition field_type (r : Receiver) (f : Field) : string :=
  crate_root r ++ "::export::Result<" ++ field_ty f ++ ", " ++ error r ++ ">".

(** `ReceiverField::field_decl`: `parse_quote! { pub #ident: #ty }` parses
    as a named field only when the ident is there; without it the tokens
    `pub : ...` are no type and `parse_quote!` panics. *)
Definition field_decl (r : Receiver) (f : Field) : Result (string * string) Panic :=
  match field_ident f with
  | Some i => Ok (i, field_type r f)
  | None => Err PanicParseQuote
  end.

(** `ReceiverField::take_error` and `ReceiverField::initializer`: both start
    with `.expect("Unnamed fields not supported")` on the ident. *)
Definition take_error (f : Field) : Result string Panic :=
  match field_ident f with
  | Some i => Ok i
  | None => Err (PanicExpect "Unnamed fields not supported")
  end.

Definition initializer (f : Field) : Result string Panic := take_error f.

(** Evaluating a lazy `.map(..)` iterator inside `quote!`: the first panic
    stops the expansion. *)
Fixpoint map_all {A B} (g : A -> Result B Panic) (xs : list A) : Result (list B) Panic :=
  match xs with
  | [] => Ok []
  | x :: rest =>
      match g x with
      | Err p => Err p
      | Ok y => match map_all g rest with Err p => Err p | Ok ys => Ok (y :: ys) end
      end
  end.

(** `Receiver::to_tokens`.  `take_struct().expect(..)` runs first; the
    three iterators are then consumed by `quote!` in the order they appear
    in it: field declarations, take statements, initializers. *)
Definition to_tokens (r : Receiver) : Result Generated Panic :=
  match data r with
  | Enum _ => Err (PanicExpect "Only structs are supported")
  | StructData _ fields =>
      match map_all (field_decl r) fields with
      | Err p => Err p
      | Ok decls =>
      match map_all take_error fields with
      | Err p => Err p
      | Ok takes =>
      match map_all initializer fields with
      | Err p => Err p
      | Ok inits =>
          Ok {| gen_struct :=
                  {| struct_vis := vis r;
                     struct_name := checker_name r;
                     struct_fields := decls;
                     struct_errors_decl :=
                       option_map (fun i => (i, crate_root r ++ "::export::Vec<" ++ error r ++ ">"))
                         (additional_errors_ident r) |};
                gen_target := ident r;
                gen_error_type := final_error r;
                gen_take_errors := takes;
                gen_initializers := inits;
                gen_reads_additional := additional_errors r |}
      end end end
  end.



(** The receiver darling builds for a named struct whose `error` is set. *)
Definition named_receiver (id v : string) (attrs : StagingAttrs) (e : string)
  (fs : list (string * string)) : Receiver :=
  {| ident := id; vis := v; data := StructData Struct (map named_field fs);
     name := attr_name attrs; error := e;
     final_error_opt := attr_final_error attrs;
     crate_root_opt := attr_crate_root attrs;
     additional_errors := attr_additional_errors attrs |}.

(** Options `error = <e>` and, when [flag], `additional_errors`. *)
Definition staging_attrs (e : string) (flag : bool) : StagingAttrs :=
  {| attr_name := None; attr_error := Some e; attr_final_error := None;
     attr_crate_root := None; attr_additional_errors := flag |}.


End Derive.

(** The example `staging/examples/named_struct.rs`. *)
Module NamedStruct.

Import Conversion.
Local Open Scope string_scope.

(** [std::num::ParseIntError], by its kind. *)
#[local] Set Warnings "-register-all".

Inductive ParseIntError : Type := IntEmpty | InvalidDigit | PosOverflow.

Inductive ParseError : Type :=
| TooFewParts
| InvalidAge (err : ParseIntError).

Inductive Error : Type :=
| Parse (err : ParseError)
| InvalidName
| NameAgeMismatch
| AgeTooHigh
| Multiple (errors : list Error).

(** `impl FromIterator<Error> for Error`: the one error when there is
    exactly one, `Error::Multiple` otherwise. *)
Definition from_iter (errors : list Error) : Error :=
  match errors with
  | [e] => e
  | _ => Multiple errors
  end.

(** `#[staging(error = Error, additional_errors)] struct Args { name: String, age: u32 }`:
    the staging value `ArgsStaging { name, age, additional_errors }`. *)
Definition args_staging (name : Result string Error) (age : Result N Error)
  (additional : list Error) : Checker Error :=
  {| checker_fields := [existT (fun ty : Type => Result ty Error) string name;
                        existT (fun ty : Type => Result ty Error) N age];
     additional_errors := additional |}.

(** `Args::try_from` (the flag `additional_errors` is set). *)
Definition args_try_from (checker : Checker Error) : Run Error Error :=
  try_from from_iter true checker.

(** The final `Args { name, age }` as its field values. *)
Definition args (name : string) (age : N) : list (field_value) :=
  [existT (fun ty : Type => ty) string name; existT (fun ty : Type => ty) N age].

(** The staging values that `ArgsStaging::from_str` builds for the inputs
    "Alice,25", ",30", "bob,200" and "Mildred,70". *)
Definition alice_25 := args_staging (Ok "Alice") (Ok 25%N) [].
Definition empty_30 := args_staging (Err InvalidName) (Ok 30%N) [].
Definition bob_200 := args_staging (Err InvalidName) (Err AgeTooHigh) [].
Definition mildred_70 := args_staging (Ok "Mildred") (Ok 70%N) [NameAgeMismatch].

(** ** `impl FromStr for ArgsStaging` and `impl FromStr for Args`

    A `&str` is its UTF-8 bytes ([string], one [ascii] per byte), as in
    Rust.  `split(',')` and `parse::<u32>` work on the bytes; `chars()`
    and `trim` decode the bytes into chars (code points). *)

(** `s.split(',')`. *)
Fixpoint split_comma (s : string) : list string :=
  match s with
  | EmptyString => [EmptyString]
  | String c rest =>
      let parts := split_comma rest in
      if Ascii.eqb c ","%char then EmptyString :: parts
      else match parts with
           | p :: ps => String c p :: ps
           | [] => [String c EmptyString]
           end
  end.

(** Decoding one char from the front of a `&str` (`next_code_point` of
    `core::str`): the leading byte gives the length, continuation bytes
    give 6 bits each.  A `&str` is valid UTF-8, so a sequence is never
    cut short; the model reads a missing byte as 0. *)
Definition cont_bits (s : string) : N :=
  match s with
  | String b _ => N.land (Ascii.N_of_ascii b) 63
  | EmptyString => 0%N
  end.

Definition tail1 (s : string) : string :=
  match s with String _ r => r | EmptyString => EmptyString end.

Definition decode_first (s : string) : option (N * string) :=
  match s with
  | EmptyString => None
  | String b0 rest =>
      let x := Ascii.N_of_ascii b0 in
      if N.ltb x 128 then Some (x, rest)
      else
        let init := N.land x 31 in
        let y := cont_bits rest in
        let rest1 := tail1 rest in
        if N.ltb x 224 then Some (N.lor (N.shiftl init 6) y, rest1)
        else
          let y_z := N.lor (N.shiftl y 6) (cont_bits rest1) in
          let rest2 := tail1 rest1 in
          if N.ltb x 240 then Some (N.lor (N.shiftl init 12) y_z, rest2)
          else Some (N.lor (N.lor (N.shiftl (N.land init 7) 18) (N.shiftl y_z 6))
                           (cont_bits rest2), tail1 rest2)
  end.

(** `s.chars()`, each char with the bytes it occupies; [fuel] is the
    number of bytes, and each char takes at least one. *)
Fixpoint utf8_chars (fuel : nat) (s : string) : list (N * string) :=
  match fuel with
  | O => []
  | S fuel' =>
      match decode_first s with
      | None => []
      | Some (c, rest) =>
          (c, substring 0 (String.length s - String.length rest) s)
            :: utf8_chars fuel' rest
      end
  end.

Definition chars (s : string) : list (N * string) := utf8_chars (String.length s) s.

(** `char::is_whitespace`: `' '` and `'\x09'..='\x0d'`, and above
    `'\x7f'` the Unicode White_Space chars U+0085, U+00A0, U+1680,
    U+2000..=U+200A, U+2028, U+2029, U+202F, U+205F, U+3000. *)
Definition is_whitespace (c : N) : bool :=
  N.eqb c 32 || (N.leb 9 c && N.leb c 13) ||
  N.eqb c 133 || N.eqb c 160 || N.eqb c 5760 ||
  (N.leb 8192 c && N.leb c 8202) ||
  N.eqb c 8232 || N.eqb c 8233 || N.eqb c 8239 || N.eqb c 8287 || N.eqb c 12288.

Fixpoint drop_whitespace (cs : list (N * string)) : list (N * string) :=
  match cs with
  | (c, _) :: rest => if is_whitespace c then drop_whitespace rest else cs
  | [] => []
  end.

Definition concat_chars (cs : list (N * string)) : string :=
  fold_right (fun cb acc => snd cb ++ acc)%string EmptyString cs.

(** `str::trim`: whitespace chars removed from both ends. *)
Definition trim (s : string) : string :=
  concat_chars (rev (drop_whitespace (rev (drop_whitespace (chars s))))).

(** `u32::MAX`. *)
Definition u32_max : N := 4294967295.

(** `char::to_digit(10)`. *)
Definition to_digit (c : Ascii.ascii) : option N :=
  let n := Ascii.N_of_ascii c in
  if N.leb 48 n && N.leb n 57 then Some (n - 48)%N else None.

(** The digit loop of `u32::from_str_radix(_, 10)`: each character is
    checked to be a digit first, then `result * 10 + digit` must not pass
    `u32::MAX` (its `checked_mul` and `checked_add`). *)
Fixpoint parse_digits (result : N) (s : string) : Result N ParseIntError :=
  match s with
  | EmptyString => Ok result
  | String c rest =>
      match to_digit c with
      | None => Err InvalidDigit
      | Some x =>
          let v := (result * 10 + x)%N in
          if N.ltb u32_max v then Err PosOverflow else parse_digits v rest
      end
  end.

(** `str::parse::<u32>`: the empty string is [IntEmpty]; a lone sign is
    [InvalidDigit]; a leading `+` is skipped; a leading `-` is kept (the type
    is unsigned) and then fails as a digit. *)
Definition parse_u32 (s : string) : Result N ParseIntError :=
  match s with
  | EmptyString => Err IntEmpty
  | String c EmptyString =>
      if Ascii.eqb c "+"%char || Ascii.eqb c "-"%char then Err InvalidDigit
      else parse_digits 0%N s
  | String c rest => if Ascii.eqb c "+"%char then parse_digits 0%N rest else parse_digits 0%N s
  end.

Section FromStr.

(** `char::is_lowercase`: the Unicode Lowercase property (its tables are
    not embedded; every statement below holds for any predicate). *)
Variable char_is_lowercase : N -> bool.

(** The `name` field: `""` is `Error::InvalidName`, and so is a name
    whose first char (`n.chars().next()`) is lowercase. *)
Definition parse_name (part : string) : Result string Error :=
  match decode_first part with
  | None => Err InvalidName
  | Some (c, _) => if char_is_lowercase c then Err InvalidName else Ok part
  end.

(** The `age` field: `parts[1].trim().parse::<u32>()`, its error mapped
    through `ParseError::from` and `Error::from`, then `a > 150` is
    `Error::AgeTooHigh`. *)
Definition parse_age (part : string) : Result N Error :=
  match parse_u32 (trim part) with
  | Err e => Err (Parse (InvalidAge e))
  | Ok a => if N.ltb 150 a then Err AgeTooHigh else Ok a
  end.

(** The cross-field check: both fields parsed, `n == "Mildred" && a < 80`. *)
Definition additional_of (name : Result string Error) (age : Result N Error) : list Error :=
  match name, age with
  | Ok n, Ok a => if String.eqb n "Mildred" && N.ltb a 80 then [NameAgeMismatch] else []
  | _, _ => []
  end.

(** `ArgsStaging::from_str`: fewer than two parts is `TooFewParts`;
    otherwise `parts[0]` and `parts[1]` are used. *)
Definition args_staging_from_str (s : string) : Result (Checker Error) ParseError :=
  match split_comma s with
  | p0 :: p1 :: _ =>
      let name := parse_name p0 in
      let age := parse_age p1 in
      Ok (args_staging name age (additional_of name age))
  | _ => Err TooFewParts
  end.

(** `Args::from_str`: `ArgsStaging::from_str(s)?` (the `?` converts the
    `ParseError` with `Error::from`), then `Self::try_from(staging)`. *)
Definition args_from_str (s : string) : option (Result (list field_value) Error) :=
  match args_staging_from_str s with
  | Err e => Some (Err (Parse e))
  | Ok staging => run_result (args_try_from staging)
  end.

End FromStr.

(** `char::is_lowercase` on the ASCII range: exactly `'a'..='z'`. *)
Definition ascii_is_lowercase (c : N) : bool := N.leb 97 c && N.leb c 122.

(** Decimal digit strings, used to state what [parse_u32] accepts: the
    character of a digit, a string of digits, and its value read from the
    left. *)
Definition digit_char (d : N) : Ascii.ascii := Ascii.ascii_of_N (48 + d).

Fixpoint digits_string (ds : list N) : string :=
  match ds with
  | [] => EmptyString
  | d :: rest => String (digit_char d) (digits_string rest)
  end.

Definition decimal_value (ds : list N) : N :=
  fold_left (fun acc d => (acc * 10 + d)%N) ds 0%N.

End NamedStruct.

(** * The generated conversion *)

Module ConversionFacts.

Import Conversion.

Section Facts.

Context {Error FinalError : Type} (collect : list Error -> FinalError).

(** Running the take statements appends the failing fields' errors, in
    field order, to what `__errors` held, and binds each field's local. *)
Lemma take_errors_acc (errors : list Error) (slots : list (field_slot Error)) :
  take_errors errors slots = (errors ++ field_errors slots, map slot_local slots).
Proof.
  revert errors; induction slots as [| [ty [v | e]] rest IH]; intros errors; simpl.
  - rewrite app_nil_r; reflexivity.
  - rewrite IH; reflexivity.
  - rewrite IH, <- app_assoc; reflexivity.
Qed.

(** The generated `try_from`, with its accumulator computed. *)
Lemma try_from_unfold (flag : bool) (c : Checker Error) :
  try_from collect flag c =
  let errors := errors_init flag c ++ field_errors (checker_fields c) in
  if negb (vec_is_empty errors) then
    {| run_result := Some (Err (collect errors)); run_collects := [errors] |}
  else
    {| run_result := option_map Ok (initializers (map slot_local (checker_fields c)));
       run_collects := [] |}.
Proof. unfold try_from; rewrite take_errors_acc; reflexivity. Qed.

Lemma field_errors_ok_slots (vs : list field_value) :
  field_errors (Error := Error) (map ok_slot vs) = [].
Proof. induction vs as [| [ty v] vs IH]; simpl; auto. Qed.

Lemma initializers_ok_slots (vs : list field_value) :
  initializers (map (slot_local (Error := Error)) (map ok_slot vs)) = Some vs.
Proof. induction vs as [| [ty v] vs IH]; simpl; [reflexivity | now rewrite IH]. Qed.

(** No failing field: every slot is a success, and the locals unwrap to
    exactly the slots' values. *)
Lemma no_field_errors_all_ok (slots : list (field_slot Error)) :
  field_errors slots = [] ->
  exists vs, slots = map ok_slot vs /\ initializers (map slot_local slots) = Some vs.
Proof.
  induction slots as [| [ty [v | e]] rest IH]; simpl; intros H.
  - exists []; auto.
  - destruct (IH H) as (vs & -> & Hinit).
    exists (existT _ ty v :: vs); simpl; rewrite Hinit; auto.
  - discriminate.
Qed.

Lemma vec_is_empty_nil {A} (l : list A) : vec_is_empty l = true <-> l = [].
Proof. destruct l; simpl; split; congruence. Qed.

End Facts.

End ConversionFacts.

Module ConversionSpec.

Import Conversion ConversionFacts NamedStruct.

(** Claim C1: the generated conversion calls the reduction ([collect]) at
    most once, and exactly once when there is an error; its argument is
    the unassociated errors (`additional_errors`, read when the flag is
    set) in their order, followed by the errors of the failing fields in
    declaration order.  Every such error is passed exactly once. *)
Theorem try_from_collect_order {Error FinalError : Type}
  (collect : list Error -> FinalError) (flag : bool) (c : Checker Error) :
  run_collects (try_from collect flag c) =
  match errors_init flag c ++ field_errors (checker_fields c) with
  | [] => []
  | errors => [errors]
  end /\
  errors_init true c = additional_errors c.
Proof.
  split; [| reflexivity].
  rewrite try_from_unfold; simpl.
  destruct (errors_init flag c ++ field_errors (checker_fields c)); reflexivity.
Qed.

(** Claim C2 fails as stated: for `Args` ("Mildred,70") both fields are
    successes, but the unassociated error `NameAgeMismatch` makes the
    conversion fail and call the reduction. *)
Lemma zero_error_success_counterexample :
  checker_fields mildred_70 = map ok_slot (args "Mildred"%string 70) /\
  run_result (args_try_from mildred_70) = Some (Err NameAgeMismatch) /\
  run_collects (args_try_from mildred_70) = [[NameAgeMismatch]].
Proof. repeat split; reflexivity. Qed.

(** Claim C2 (amended): when every field outcome is a success and, with the
    flag set, `additional_errors` is empty, the conversion succeeds with
    exactly the fields' values and never calls the reduction; with the flag
    set and `additional_errors` non-empty it fails instead, with the
    reduction of `additional_errors` alone. *)
Theorem try_from_zero_error_success {Error FinalError : Type}
  (collect : list Error -> FinalError) (flag : bool) (c : Checker Error)
  (vs : list field_value) :
  checker_fields c = map ok_slot vs ->
  ((flag = false \/ additional_errors c = []) ->
   try_from collect flag c = {| run_result := Some (Ok vs); run_collects := [] |}) /\
  (flag = true -> additional_errors c <> [] ->
   try_from collect flag c =
   {| run_result := Some (Err (collect (additional_errors c)));
      run_collects := [additional_errors c] |}).
Proof.
  intros Hf; split.
  - intros Hadd.
    assert (Hinit : errors_init flag c = []).
    { unfold errors_init; destruct flag; [destruct Hadd as [H | H]; [discriminate | exact H] | reflexivity]. }
    rewrite try_from_unfold; simpl.
    rewrite Hinit, Hf, field_errors_ok_slots, initializers_ok_slots; reflexivity.
  - intros -> Hne.
    rewrite try_from_unfold; cbv zeta; unfold errors_init.
    rewrite Hf, field_errors_ok_slots, app_nil_r.
    destruct (additional_errors c) as [| e rest]; [congruence | reflexivity].
Qed.

Lemma try_from_zero_error_success_witness :
  try_from from_iter true alice_25 =
  {| run_result := Some (Ok (args "Alice"%string 25)); run_collects := [] |} /\
  try_from from_iter true mildred_70 =
  {| run_result := Some (Err (from_iter [NameAgeMismatch]));
     run_collects := [[NameAgeMismatch]] |}.
Proof.
  split.
  - apply (try_from_zero_error_success from_iter true alice_25 (args "Alice"%string 25)).
    + reflexivity.
    + right; reflexivity.
  - apply (try_from_zero_error_success from_iter true mildred_70 (args "Mildred"%string 70)).
    + reflexivity.
    + reflexivity.
    + discriminate.
Defined.

(** Claim C3: the conversion fails exactly when its accumulator is
    non-empty; the failure is the reduction of the accumulator in order;
    a success carries every field's value (all fields were successes and
    the accumulator was empty), never a part of them. *)
Theorem try_from_all_or_nothing {Error FinalError : Type}
  (collect : list Error -> FinalError) (flag : bool) (c : Checker Error) :
  let errors := errors_init flag c ++ field_errors (checker_fields c) in
  ((exists e, run_result (try_from collect flag c) = Some (Err e)) <-> errors <> []) /\
  (errors <> [] -> run_result (try_from collect flag c) = Some (Err (collect errors))) /\
  (forall vs, run_result (try_from collect flag c) = Some (Ok vs) ->
     errors = [] /\ checker_fields c = map ok_slot vs).
Proof.
  intros errors.
  rewrite try_from_unfold; fold errors.
  destruct errors as [| e0 rest] eqn:He; simpl.
  - apply app_eq_nil in He as [_ Hf].
    destruct (no_field_errors_all_ok _ Hf) as (vs & Hvs & Hinit).
    rewrite Hinit; simpl.
    split; [| split].
    + split; [intros [e He']; discriminate | intros Hne; congruence].
    + intros Hne; congruence.
    + intros vs' Hr; injection Hr as <-; split; [reflexivity | exact Hvs].
  - split; [| split].
    + split; [intros _; discriminate | intros _; eexists; reflexivity].
    + intros _; reflexivity.
    + intros vs Hr; discriminate.
Qed.

Lemma try_from_all_or_nothing_witness :
  run_result (args_try_from bob_200) = Some (Err (from_iter [InvalidName; AgeTooHigh])).
Proof.
  apply (proj1 (proj2 (try_from_all_or_nothing from_iter true bob_200))).
  discriminate.
Defined.

(** Claim C4: with a reduction that is the identity on one error, a staging
    value with exactly one failing field and no unassociated errors makes
    the conversion fail with that field's error. *)
Theorem try_from_single_error_passthrough {Error : Type}
  (collect : list Error -> Error) :
  (forall e, collect [e] = e) ->
  forall (flag : bool) (c : Checker Error) (before after : list field_value)
         (ty : Type) (err : Error),
  checker_fields c = map ok_slot before ++ existT _ ty (Err err) :: map ok_slot after ->
  (flag = false \/ additional_errors c = []) ->
  run_result (try_from collect flag c) = Some (Err err).
Proof.
  intros Hsingle flag c before after ty err Hf Hadd.
  assert (Hinit : errors_init flag c = []).
  { unfold errors_init; destruct flag; [destruct Hadd as [H | H]; [discriminate | exact H] | reflexivity]. }
  assert (Hfe : field_errors (checker_fields c) = [err]).
  { rewrite Hf; clear Hf; induction before as [| [t v] before IH]; simpl.
    - rewrite field_errors_ok_slots; reflexivity.
    - exact IH. }
  rewrite try_from_unfold; simpl; rewrite Hinit, Hfe; simpl.
  rewrite Hsingle; reflexivity.
Qed.

Lemma try_from_single_error_passthrough_witness :
  (forall e, from_iter [e] = e) /\
  run_result (args_try_from empty_30) = Some (Err InvalidName).
Proof.
  split; [intros e; reflexivity |].
  apply (try_from_single_error_passthrough from_iter (fun e => eq_refl) true empty_30
           [] [existT (fun ty : Type => ty) N 30%N] string InvalidName).
  - reflexivity.
  - right; reflexivity.
Defined.

(** Claim C5: when `__errors` is empty after the take statements, every
    field's local is `Some`, so every `.unwrap()` of the initializers
    succeeds and the conversion returns `Ok` without panicking. *)
Theorem try_from_no_unwrap_panic {Error FinalError : Type}
  (collect : list Error -> FinalError) (flag : bool) (c : Checker Error)
  (errors : list Error) (locals : list (option field_value)) :
  take_errors (errors_init flag c) (checker_fields c) = (errors, locals) ->
  errors = [] ->
  Forall (fun l => l <> None) locals /\
  exists vs, initializers locals = Some vs /\
             run_result (try_from collect flag c) = Some (Ok vs).
Proof.
  intros Htake Hnil.
  rewrite take_errors_acc in Htake; injection Htake as Herr Hloc.
  rewrite Hnil in Herr; apply app_eq_nil in Herr as [Hinit Hf].
  destruct (no_field_errors_all_ok _ Hf) as (vs & Hvs & Hi).
  split.
  - subst locals; rewrite Hvs; clear.
    induction vs as [| [t v] vs IH]; simpl; constructor; [discriminate | exact IH].
  - exists vs; split; [subst locals; exact Hi |].
    rewrite try_from_unfold; simpl; rewrite Hinit, Hf, Hi; reflexivity.
Qed.

Lemma try_from_no_unwrap_panic_witness :
  Forall (fun l => l <> None) [Some (existT (fun ty : Type => ty) string "Alice"%string);
                               Some (existT (fun ty : Type => ty) N 25%N)] /\
  exists vs, initializers [Some (existT (fun ty : Type => ty) string "Alice"%string);
                           Some (existT (fun ty : Type => ty) N 25%N)] = Some vs /\
             run_result (args_try_from alice_25) = Some (Ok vs).
Proof.
  apply (try_from_no_unwrap_panic from_iter true alice_25 []
           [Some (existT (fun ty : Type => ty) string "Alice"%string);
            Some (existT (fun ty : Type => ty) N 25%N)]).
  - reflexivity.
  - reflexivity.
Defined.

(** Claim C10: without the flag, `__errors` starts as `Vec::new()`, so the
    conversion behaves as the flagged one on the same fields with an empty
    `additional_errors`. *)
Theorem try_from_without_flag_refines {Error FinalError : Type}
  (collect : list Error -> FinalError) (c : Checker Error) :
  errors_init false c = [] /\
  try_from collect false c =
  try_from collect true {| checker_fields := checker_fields c; additional_errors := [] |}.
Proof. split; reflexivity. Qed.

(** The scenarios of the example: "Alice,25" succeeds, ",30" fails with the
    single `InvalidName`, "bob,200" with both field errors in order. *)
Example scenario_alice_25 :
  run_result (args_try_from alice_25) = Some (Ok (args "Alice"%string 25)).
Proof. reflexivity. Qed.

Example scenario_empty_30 :
  run_result (args_try_from empty_30) = Some (Err InvalidName).
Proof. reflexivity. Qed.

Example scenario_bob_200 :
  run_result (args_try_from bob_200) = Some (Err (Multiple [InvalidName; AgeTooHigh])).
Proof. reflexivity. Qed.

End ConversionSpec.

(** * The derive *)

Module DeriveFacts.

Import Derive.




(** The take statements name the staging fields in declaration order. *)
Lemma map_all_decl_take (r : Receiver) (fs : list Field)
  (decls : list (string * string)) (takes : list string) :
  map_all (field_decl r) fs = Ok decls -> map_all take_error fs = Ok takes ->
  takes = map fst decls.
Proof.
  revert decls takes; induction fs as [| f fs IH]; intros decls takes Hd Ht; simpl in *.
  - injection Hd as <-; injection Ht as <-; reflexivity.
  - unfold field_decl, take_error in *.
    destruct (field_ident f) as [i |]; [| discriminate].
    destruct (map_all (fun f0 => match field_ident f0 with
                                 | Some i0 => Ok (i0, field_type r f0)
                                 | None => Err PanicParseQuote end) fs) as [ds |];
      [| discriminate].
    destruct (map_all (fun f0 => match field_ident f0 with
                                 | Some i0 => Ok i0
                                 | None => Err (PanicExpect "Unnamed fields not supported") end) fs)
      as [ts |]; [| discriminate].
    injection Hd as <-; injection Ht as <-; simpl; f_equal; apply IH; reflexivity.
Qed.


End DeriveFacts.

Module DeriveSpec.

Import Derive DeriveFacts.
Local Open Scope string_scope.












End DeriveSpec.


(** * The example's parser *)

Module ParseFacts.

Import Conversion ConversionFacts NamedStruct.

Lemma digit_char_props (d : N) :
  (d < 10)%N ->
  to_digit (digit_char d) = Some d /\
  Ascii.eqb (digit_char d) "+"%char = false /\
  Ascii.eqb (digit_char d) "-"%char = false.
Proof.
  intros Hd.
  assert (d = 0 \/ d = 1 \/ d = 2 \/ d = 3 \/ d = 4 \/ d = 5 \/ d = 6 \/ d = 7
          \/ d = 8 \/ d = 9)%N as Hc by lia.
  repeat destruct Hc as [-> | Hc]; [.. | subst d]; vm_compute; auto.
Qed.

Lemma fold_digits_ge (ds : list N) (acc : N) :
  (acc <= fold_left (fun a d => (a * 10 + d)%N) ds acc)%N.
Proof.
  revert acc; induction ds as [| d ds IH]; intros acc; simpl; [lia |].
  specialize (IH (acc * 10 + d)%N); lia.
Qed.

(** The digit loop on a string of digits: the value read, or
    [PosOverflow] as soon as it passes `u32::MAX`. *)
Lemma parse_digits_string (ds : list N) (acc : N) :
  (acc <= u32_max)%N -> Forall (fun d => d < 10)%N ds ->
  parse_digits acc (digits_string ds) =
  let v := fold_left (fun a d => (a * 10 + d)%N) ds acc in
  if N.leb v u32_max then Ok v else Err PosOverflow.
Proof.
  revert acc; induction ds as [| d ds IH]; intros acc Hacc Hds; simpl.
  - apply N.leb_le in Hacc; rewrite Hacc; reflexivity.
  - inversion Hds as [| ? ? Hd Hrest]; subst.
    destruct (digit_char_props d Hd) as (-> & _ & _).
    destruct (N.ltb u32_max (acc * 10 + d)) eqn:Hv.
    + apply N.ltb_lt in Hv.
      pose proof (fold_digits_ge ds (acc * 10 + d)) as Hge.
      replace (N.leb _ u32_max) with false; [reflexivity |].
      symmetry; apply N.leb_gt; lia.
    + apply N.ltb_ge in Hv; apply IH; assumption.
Qed.

Lemma split_comma_nonempty (s : string) : exists p ps, split_comma s = p :: ps.
Proof.
  induction s as [| c s (p & ps & IH)]; simpl; [eexists _, _; reflexivity |].
  rewrite IH; destruct (Ascii.eqb c ","%char); eexists _, _; reflexivity.
Qed.

(** `split(',')` yields at least two parts exactly when there is a comma. *)
Lemma split_comma_two_parts (s : string) :
  (exists p0 p1 rest, split_comma s = p0 :: p1 :: rest) <->
  In ","%char (list_ascii_of_string s).
Proof.
  induction s as [| c s IH]; simpl.
  - split; [intros (p0 & p1 & rest & H); discriminate | intros []].
  - destruct (split_comma_nonempty s) as (p & ps & Hs); rewrite Hs in *.
    destruct (Ascii.eqb_spec c ","%char) as [-> | Hc].
    + split; [intros _; left; reflexivity | intros _; eexists _, _, _; reflexivity].
    + rewrite <- IH; split.
      * intros (p0 & p1 & rest & H); right; injection H as _ ->; eauto.
      * intros [Heq | (p0 & p1 & rest & H)]; [congruence |].
        injection H as -> ->; eexists _, _, _; reflexivity.
Qed.

Lemma parse_name_cases (lower : N -> bool) (p : string) :
  parse_name lower p = Ok p \/ parse_name lower p = Err InvalidName.
Proof.
  unfold parse_name; destruct (decode_first p) as [[c t] |]; [| right; reflexivity].
  destruct (lower c); auto.
Qed.

(** Decoding a char fails only on the empty string. *)
Lemma decode_first_some (b : Ascii.ascii) (t : string) :
  exists c r, decode_first (String b t) = Some (c, r).
Proof.
  unfold decode_first; cbv zeta.
  repeat match goal with |- context [if ?x then _ else _] => destruct x end; eauto.
Qed.

Lemma parse_age_cases (p : string) :
  (exists a, parse_age p = Ok a /\ (a <= 150)%N) \/
  parse_age p = Err AgeTooHigh \/
  (exists k, parse_age p = Err (Parse (InvalidAge k))).
Proof.
  unfold parse_age; destruct (parse_u32 (trim p)) as [a | k]; [| eauto].
  destruct (N.ltb 150 a) eqn:Ha; [auto |].
  left; exists a; split; [reflexivity | apply N.ltb_ge in Ha; exact Ha].
Qed.

(** `Args::from_str` once the input has two parts. *)
Lemma args_from_str_parts (lower : N -> bool) (s p0 p1 : string) (rest : list string) :
  split_comma s = p0 :: p1 :: rest ->
  args_from_str lower s =
  run_result (args_try_from (args_staging (parse_name lower p0) (parse_age p1)
                               (additional_of (parse_name lower p0) (parse_age p1)))).
Proof. intros H; unfold args_from_str, args_staging_from_str; rewrite H; reflexivity. Qed.

Lemma parse_name_ok (lower : N -> bool) (p : string) :
  parse_name lower p = Ok p <->
  p <> EmptyString /\ (forall c t, decode_first p = Some (c, t) -> lower c = false).
Proof.
  destruct p as [| b t].
  - split; [discriminate | intros [H _]; congruence].
  - destruct (decode_first_some b t) as (c & r & Hd).
    unfold parse_name; rewrite Hd; destruct (lower c) eqn:Hl; split.
    + discriminate.
    + intros [_ H]; rewrite (H c r eq_refl) in Hl; discriminate.
    + intros _; split; [discriminate |].
      intros c' t' H; injection H as <- _; exact Hl.
    + reflexivity.
Qed.

Lemma parse_age_ok (p : string) (a : N) :
  parse_age p = Ok a <-> parse_u32 (trim p) = Ok a /\ (a <= 150)%N.
Proof.
  unfold parse_age; destruct (parse_u32 (trim p)) as [b | k]; [| split; [discriminate | intros [H _]; discriminate]].
  destruct (N.ltb 150 b) eqn:Hb.
  - apply N.ltb_lt in Hb; split; [discriminate | intros [H Ha]; injection H as ->; lia].
  - apply N.ltb_ge in Hb; split.
    + intros H; injection H as ->; auto.
    + intros [H _]; injection H as ->; reflexivity.
Qed.

Lemma mildred_check_false (n : string) (a : N) :
  (String.eqb n "Mildred" && N.ltb a 80)%bool = false <->
  ~ (n = "Mildred"%string /\ (a < 80)%N).
Proof.
  rewrite andb_false_iff, String.eqb_neq, N.ltb_ge.
  split; [intros [H | H] [H1 H2]; [congruence | lia] |].
  intros H; destruct (String.eqb_spec n "Mildred") as [-> | Hn]; [right | left; exact Hn].
  destruct (N.le_gt_cases 80 a); [assumption | exfalso; tauto].
Qed.

End ParseFacts.

Module ParseSpec.

Import Conversion ConversionFacts NamedStruct ParseFacts.

(** On a non-empty string of decimal digits, `parse::<u32>` returns its
    value when it fits in a `u32` and [PosOverflow] otherwise. *)
Theorem parse_u32_digits (ds : list N) :
  ds <> [] -> Forall (fun d => d < 10)%N ds ->
  parse_u32 (digits_string ds) =
  if N.leb (decimal_value ds) u32_max then Ok (decimal_value ds) else Err PosOverflow.
Proof.
  intros Hne Hds.
  assert (H0 : (0 <= u32_max)%N) by (unfold u32_max; lia).
  destruct ds as [| d ds]; [congruence |].
  inversion Hds as [| ? ? Hd _]; subst.
  destruct (digit_char_props d Hd) as (_ & Hplus & Hminus).
  pose proof (parse_digits_string (d :: ds) 0 H0 Hds) as Hp; cbv zeta in Hp.
  unfold decimal_value; rewrite <- Hp.
  destruct ds as [| d' ds]; cbn [digits_string parse_u32]; rewrite Hplus;
    [rewrite Hminus |]; reflexivity.
Qed.

Lemma parse_u32_digits_witness :
  parse_u32 (digits_string [4; 2]%N) = Ok 42%N.
Proof.
  rewrite (parse_u32_digits [4; 2]%N); [reflexivity | discriminate |].
  repeat constructor; vm_compute; reflexivity.
Defined.

(** `ArgsStaging::from_str` fails only with [TooFewParts], and exactly
    when the input has no comma; `Args::from_str` then returns
    `Error::Parse(TooFewParts)`, and never returns it otherwise. *)
Theorem args_from_str_too_few_parts (lower : N -> bool) (s : string) :
  (forall e, args_staging_from_str lower s = Err e -> e = TooFewParts) /\
  (args_staging_from_str lower s = Err TooFewParts <-> ~ In ","%char (list_ascii_of_string s)) /\
  (args_from_str lower s = Some (Err (Parse TooFewParts)) <-> ~ In ","%char (list_ascii_of_string s)).
Proof.
  pose proof (split_comma_two_parts s) as Hsplit.
  unfold args_from_str, args_staging_from_str.
  destruct (split_comma s) as [| p0 [| p1 rest]] eqn:Hs.
  - destruct (split_comma_nonempty s) as (p & ps & Hs'); congruence.
  - assert (Hno : ~ In ","%char (list_ascii_of_string s)).
    { rewrite <- Hsplit; intros (q0 & q1 & r & H); discriminate. }
    repeat split; auto; intros e H; injection H as <-; reflexivity.
  - assert (Hin : In ","%char (list_ascii_of_string s)) by (apply Hsplit; eauto).
    split; [intros e H; discriminate | split; [split; [discriminate | tauto] |]].
    split; [| tauto]; intros H; exfalso.
    destruct (parse_name_cases lower p0) as [Hn | Hn]; rewrite Hn in H;
    destruct (parse_age_cases p1) as [(a & Ha & _) | [Ha | (k & Ha)]]; rewrite Ha in H;
    try discriminate.
    simpl in H; destruct (String.eqb p0 "Mildred" && N.ltb a 80); discriminate.
Qed.

(** `Args::from_str` on an input whose first two comma-separated parts are
    [p0] and [p1] succeeds exactly when the name is non-empty and its first
    char is not lowercase (for [lower] the `char::is_lowercase` predicate,
    whatever it is), the age with Unicode whitespace trimmed parses as a
    `u32` of at most 150, and the pair is not ("Mildred", under 80); the
    record is then the name [p0] and that age. *)
Theorem args_from_str_success (lower : N -> bool) (s p0 p1 : string) (rest : list string) :
  split_comma s = p0 :: p1 :: rest ->
  let accepts a :=
    p0 <> EmptyString /\
    (forall c t, decode_first p0 = Some (c, t) -> lower c = false) /\
    parse_u32 (trim p1) = Ok a /\ (a <= 150)%N /\
    ~ (p0 = "Mildred"%string /\ (a < 80)%N) in
  ((exists vs, args_from_str lower s = Some (Ok vs)) <-> exists a, accepts a) /\
  (forall a, accepts a -> args_from_str lower s = Some (Ok (args p0 a))).
Proof.
  intros Hs accepts; rewrite (args_from_str_parts lower s p0 p1 rest Hs).
  assert (Hok : forall a, accepts a ->
            run_result (args_try_from (args_staging (parse_name lower p0) (parse_age p1)
               (additional_of (parse_name lower p0) (parse_age p1)))) = Some (Ok (args p0 a))).
  { intros a (Hne & Hlow & Hu & Hle & Hm).
    rewrite (proj2 (parse_name_ok lower p0) (conj Hne Hlow)),
            (proj2 (parse_age_ok p1 a) (conj Hu Hle)); simpl.
    rewrite (proj2 (mildred_check_false p0 a) Hm); reflexivity. }
  split; [| exact Hok].
  split; [| intros (a & Ha); eexists; exact (Hok a Ha)].
  intros (vs & H).
  destruct (parse_name_cases lower p0) as [Hn | Hn]; rewrite Hn in H;
  destruct (parse_age_cases p1) as [(a & Ha & Hle) | [Ha | (k & Ha)]]; rewrite Ha in H;
  try discriminate.
  simpl in H; destruct (String.eqb p0 "Mildred" && N.ltb a 80)%bool eqn:Hm; [discriminate |].
  exists a; apply parse_name_ok in Hn as [Hne Hlow]; apply parse_age_ok in Ha as [Hu _].
  repeat split; auto; apply mildred_check_false; exact Hm.
Qed.

Lemma args_from_str_success_witness :
  let nbsp := String (Ascii.ascii_of_N 194) (String (Ascii.ascii_of_N 160) EmptyString) in
  args_from_str ascii_is_lowercase ("Alice," ++ nbsp ++ "25 ")%string =
  Some (Ok (args "Alice"%string 25%N)).
Proof.
  intros nbsp.
  apply (proj2 (args_from_str_success ascii_is_lowercase ("Alice," ++ nbsp ++ "25 ")%string
                  "Alice"%string (nbsp ++ "25 ")%string [] eq_refl)).
  split; [discriminate |].
  split; [intros c t H; vm_compute in H; injection H as <- _; reflexivity |].
  split; [vm_compute; reflexivity |].
  split; [vm_compute; discriminate | intros [H _]; discriminate].
Defined.

(** `Args::from_str` fails with `Error::Multiple(l)` exactly when both
    fields fail; [l] is then the name's `InvalidName` followed by the age's
    error (the cross-field check only runs when both fields parsed). *)
Theorem args_from_str_multiple (lower : N -> bool) (s : string) (l : list Error) :
  args_from_str lower s = Some (Err (Multiple l)) <->
  exists p0 p1 rest e,
    split_comma s = p0 :: p1 :: rest /\ parse_name lower p0 = Err InvalidName /\
    parse_age p1 = Err e /\ l = [InvalidName; e].
Proof.
  split.
  - intros H.
    destruct (split_comma s) as [| p0 [| p1 rest]] eqn:Hs;
      [unfold args_from_str, args_staging_from_str in H; rewrite Hs in H; discriminate .. |].
    rewrite (args_from_str_parts lower s p0 p1 rest Hs) in H.
    destruct (parse_name_cases lower p0) as [Hn | Hn]; rewrite Hn in H;
    destruct (parse_age_cases p1) as [(a & Ha & Hle) | [Ha | (k & Ha)]]; rewrite Ha in H;
    try discriminate.
    + simpl in H; destruct (String.eqb p0 "Mildred" && N.ltb a 80)%bool; discriminate.
    + simpl in H; injection H as <-; exists p0, p1, rest, AgeTooHigh; auto.
    + simpl in H; injection H as <-; exists p0, p1, rest, (Parse (InvalidAge k)); auto.
  - intros (p0 & p1 & rest & e & Hs & Hn & Ha & ->).
    rewrite (args_from_str_parts lower s p0 p1 rest Hs), Hn, Ha; reflexivity.
Qed.

Lemma args_from_str_multiple_witness :
  args_from_str ascii_is_lowercase "bob,200"%string = Some (Err (Multiple [InvalidName; AgeTooHigh])).
Proof.
  apply (proj2 (args_from_str_multiple ascii_is_lowercase "bob,200"%string [InvalidName; AgeTooHigh])).
  exists "bob"%string, "200"%string, [], AgeTooHigh; repeat split; reflexivity.
Defined.

End ParseSpec.

Module DeriveExtra.

Import Derive DeriveFacts.
Local Open Scope string_scope.



(** The emitted items agree with each other: the conversion takes and
    initialises exactly the staging struct's fields, in its order, and it
    reads `checker.additional_errors` exactly when the struct declares it. *)
Theorem to_tokens_consistent (r : Receiver) (g : Generated) :
  to_tokens r = Ok g ->
  gen_take_errors g = map fst (struct_fields (gen_struct g)) /\
  gen_initializers g = gen_take_errors g /\
  (struct_errors_decl (gen_struct g) <> None <-> gen_reads_additional g = true).
Proof.
  unfold to_tokens; intros Hg.
  destruct (data r) as [| style fields]; [discriminate |].
  destruct (map_all (field_decl r) fields) as [decls |] eqn:Hd; [| discriminate].
  destruct (map_all take_error fields) as [takes |] eqn:Ht; [| discriminate].
  destruct (map_all initializer fields) as [inits |] eqn:Hi; [| discriminate].
  injection Hg as <-; cbn.
  assert (Hit : inits = takes).
  { change (map_all initializer fields) with (map_all take_error fields) in Hi; congruence. }
  split; [exact (map_all_decl_take r fields decls takes Hd Ht) | split; [exact Hit |]].
  unfold additional_errors_ident; destruct (additional_errors r); cbn;
    split; congruence.
Qed.

Lemma to_tokens_consistent_witness :
  exists g, to_tokens (named_receiver "Args" "" (staging_attrs "Error" true) "Error"
                         [("name", "String"); ("age", "u32")]) = Ok g /\
            gen_take_errors g = map fst (struct_fields (gen_struct g)).
Proof.
  remember (to_tokens (named_receiver "Args" "" (staging_attrs "Error" true) "Error"
                         [("name", "String"); ("age", "u32")])) as t eqn:Ht.
  destruct t as [g | p]; [| vm_compute in Ht; discriminate Ht].
  exists g; split; [reflexivity |].
  exact (proj1 (to_tokens_consistent _ g (eq_sym Ht))).
Defined.



End DeriveExtra.

Module ConversionExtra.

Import Conversion ConversionFacts.

(** The generated conversion never panics (no `.unwrap()` fails on any
    staging value) and calls the reduction at most once. *)
Theorem try_from_never_panics {Error FinalError : Type}
  (collect : list Error -> FinalError) (flag : bool) (c : Checker Error) :
  run_result (try_from collect flag c) <> None /\
  List.length (run_collects (try_from collect flag c)) <= 1.
Proof.
  rewrite try_from_unfold; cbv zeta.
  destruct (errors_init flag c ++ field_errors (checker_fields c)) as [| e0 rest] eqn:He;
    cbn; [| split; [discriminate | lia]].
  apply app_eq_nil in He as [_ Hf].
  destruct (no_field_errors_all_ok _ Hf) as (vs & _ & ->); split; [discriminate | lia].
Qed.

End ConversionExtra.
